(** * define_enum.hpp: enums with automatic string conversion

    A shallow embedding of [DEFINE_ENUM_WITH_STRING_CONVERSIONS] from
    [src/include/define_enum.hpp] and of the artifacts one expansion of the
    macro defines: the scoped enum with its [TOTAL] marker, the table
    [EnumName_names], [to_string], [EnumName_from_string] and the stream
    insertion operator.

    Layout: the C++ notions the header relies on ([Cxx]), the macro expansion
    in a translation unit and the declarations it produces ([Generator]),
    the generated functions ([Generated]), and then the properties of the
    specification. *)

From Equations Require Import Equations.
From stdpp Require Import base list strings gmap.
From Stdlib Require Import ZArith Lia.

Local Open Scope string_scope.
Local Open Scope Z_scope.

(** ** The C++ notions used by the header *)

Module Cxx.

(** How the evaluation of a generated function ends: it returns a value,
    it stops in a failed [assert] (the message is the string literal of
    the asserted expression), or its behaviour is undefined (an array
    indexed out of bounds, the end of a value-returning function reached). *)
Inductive outcome (A : Type) : Type :=
| Returned (a : A)
| AssertFailed (msg : string)
| Undefined.
Arguments Returned {A} a.
Arguments AssertFailed {A} msg.
Arguments Undefined {A}.

(** Sequencing: what follows a statement runs only when it completes. *)
#[export] Instance outcome_bind : MBind outcome := λ A B k m,
  match m with
  | Returned a => k a
  | AssertFailed msg => AssertFailed msg
  | Undefined => Undefined
  end.
#[export] Instance outcome_ret : MRet outcome := @Returned.

(** [int], the underlying type of a scoped enum declared without one, and
    [std::size_t]. *)
Definition INT_MAX : Z := 2 ^ 31 - 1.
Definition SIZE_WIDTH : Z := 64.
Definition INT_MIN : Z := - 2 ^ 31.

(** [static_cast<std::size_t>(v)] of an [int]: reduction modulo [2^64]. *)
Definition static_cast_size_t (v : Z) : Z := v `mod` 2 ^ SIZE_WIDTH.

(** [static_cast<int>(i)] of a [std::size_t]: the value congruent to [i]
    modulo [2^32] in the range of [int]. *)
Definition static_cast_int (i : Z) : Z := (i + 2 ^ 31) `mod` 2 ^ 32 - 2 ^ 31.

(** [assert(cond && "msg")] of <cassert>, assertions enabled: the header
    and its sample program never define NDEBUG. *)
Definition assert (cond : bool) (msg : string) : outcome unit :=
  if cond then Returned () else AssertFailed msg.

(** [a == b] on [std::string_view]: same length and same characters. *)
Definition string_view_eq (a b : string) : bool := String.eqb a b.

(** [a[i]] on [std::array], for [i] a [std::size_t]: no bounds check. *)
Definition array_at (a : list string) (i : Z) : outcome string :=
  match a !! Z.to_nat i with
  | Some s => Returned s
  | None => Undefined
  end.

(** [std::array<std::string_view, n> a = { inits }]: more initialisers than
    elements is ill-formed; elements without one are empty views. *)
Definition array_init (n : nat) (inits : list string) : option (list string) :=
  if decide (length inits ≤ n)%nat
  then Some (inits ++ replicate (n - length inits) "")%list
  else None.

(** What of a translation unit bears on a use of the header: the names of
    the object-like macros in scope there, and the keywords of the language
    version compiled.  The macros are those whose replacement does not begin
    with an identifier, as [NULL] and [EOF] of the C library: where an
    enumerator is to be declared such a replacement is ill-formed.  A macro
    whose replacement begins with an identifier (another name, a name with
    an initialiser) is outside this model. *)
Record translation_unit := {
  object_macros : gset string;
  keywords : gset string
}.

(** What stands for an identifier after macro replacement: the identifier
    itself, or the replacement of the object-like macro it names. *)
Inductive pp_token : Type :=
| Identifier (name : string)
| Replacement (macro : string).

(** Macro replacement of one identifier token. *)
Definition expand (tu : translation_unit) (name : string) : pp_token :=
  if decide (name ∈ object_macros tu) then Replacement name else Identifier name.

(** A text sink: what inserting a [std::string_view] does to it. *)
Class TextSink (K : Type) := sink_put : K → string → K.

(** The sink that keeps the characters written so far, appending. *)
#[export] Instance buffer_sink : TextSink string := String.append.

(** [os << sv] for a [std::ostream& os]: streams live in a store and a
    reference is the address of one; the stream referred to takes the
    view, and the operator returns its left operand. *)
Definition ostream_insert {K} `{TextSink K} (σ : gmap nat K) (os : nat)
    (sv : string) : outcome (gmap nat K * nat) :=
  match σ !! os with
  | Some k => Returned (<[os := sink_put k sv]> σ, os)
  | None => Undefined
  end.

End Cxx.

Import Cxx.

(** ** The macro expansion *)

Module Generator.

(** An enumerator as the X-macro lists it: an identifier. *)
Abbreviation ident := string (only parsing).

(** [#define EU_ENUM_DECLARE(name) name,] : one enumerator-definition.  The
    argument is no operand of [#] or [##], so it is macro-expanded before it
    is substituted. *)
Definition EU_ENUM_DECLARE (tu : translation_unit) (name : ident) : pp_token :=
  expand tu name.

(** [#define EU_ENUM_STRING(name) #name,] : the identifier stringified,
    that is a string literal holding its spelling; the operand of [#] is
    not expanded. *)
Definition EU_ENUM_STRING (name : ident) : string := name.

(** [ENUM_DEF(X)] for the X-macro listing [ids]: [X(id)] for each, in
    order. *)
Definition ENUM_DEF (ids : list ident) {T} (X : ident → T) : list T := X <$> ids.

(** [TOTAL] as it stands in the body of the macro, which is rescanned for
    macro names like the rest of the replacement. *)
Definition marker (tu : translation_unit) : pp_token := expand tu "TOTAL".

(** The enumerator list between the braces of
    [enum class EnumName { ENUM_DEF(EU_ENUM_DECLARE) TOTAL };]. *)
Definition enumerator_list (tu : translation_unit) (ids : list ident)
    : list pp_token :=
  (ENUM_DEF ids (EU_ENUM_DECLARE tu) ++ [marker tu])%list.

(** Declaring the enumerators in order.  An enumerator is an identifier,
    which a keyword or the replacement of a macro is not.  Without an
    initialiser it takes the value after its predecessor's, the first one 0;
    the declaration is ill-formed when a name is already declared in the
    enum, or when a value does not fit the underlying [int]. *)
Fixpoint declare_enumerators (tu : translation_unit)
    (declared : list (ident * Z)) (next : Z)
    (es : list pp_token) : option (list (ident * Z)) :=
  match es with
  | [] => Some declared
  | Replacement _ :: _ => None
  | Identifier e :: es' =>
      if decide (e ∈ keywords tu) then None
      else if decide (e ∈ declared.*1) then None
      else if decide (next ≤ INT_MAX)
           then declare_enumerators tu (declared ++ [(e, next)])%list
                  (next + 1) es'
           else None
  end.

(** [EnumName::x], for [x] an identifier: the value of the enumerator named
    [x]. *)
Fixpoint lookup_enumerator (en : list (ident * Z)) (x : ident) : option Z :=
  match en with
  | [] => None
  | (e, v) :: en' => if decide (e = x) then Some v else lookup_enumerator en' x
  end.

(** What one use of the macro defines: the enumerators with their values,
    the value of [EnumName::TOTAL], and the table [EnumName_names]. *)
Record generated := {
  enumerators : list (ident * Z);
  TOTAL : Z;
  EnumName_names : list string
}.

(** [DEFINE_ENUM_WITH_STRING_CONVERSIONS(EnumName, ENUM_DEF)] used in the
    translation unit [tu]: the enum, then the array of
    [static_cast<std::size_t>(EnumName::TOTAL)] views initialised with
    [ENUM_DEF(EU_ENUM_STRING)].  [None] when one of the two declarations is
    ill-formed. *)
Definition DEFINE_ENUM_WITH_STRING_CONVERSIONS (tu : translation_unit)
    (ids : list ident) : option generated :=
  en ← declare_enumerators tu [] 0 (enumerator_list tu ids);
  total ← match marker tu with
          | Identifier x => lookup_enumerator en x
          | Replacement _ => None
          end;
  names ← array_init (Z.to_nat (static_cast_size_t total))
                     (ENUM_DEF ids EU_ENUM_STRING);
  Some {| enumerators := en; TOTAL := total; EnumName_names := names |}.

End Generator.

Import Generator.

(** ** The generated functions *)

Section Generated.

(** The array [EnumName##_names] that the generated functions refer to.  A
    value of the enum is the [int] it holds. *)
Variable names : list string.

(** [constexpr std::string_view to_string(EnumName value) noexcept]. *)
Definition to_string (value : Z) : outcome string :=
  array_at names (static_cast_size_t value).

(** The [for] loop of [EnumName_from_string], entered with index [i], and
    the [assert] after it.  [names[i]] is read under [i < names.size()]; its
    two branches are those of [array_at].  The string literal operand of
    [&&] is a non-null pointer, hence [true]; past the [assert] the function
    would end without a [return]. *)
Equations? from_string_loop (sv : string) (i : nat) : outcome Z
    by wf (length names - i)%nat lt :=
  from_string_loop sv i with decide (i < length names)%nat := {
    | left _ with names !! i := {
        | Some s with string_view_eq s sv := {
            | true => Returned (static_cast_int (Z.of_nat i))
            | false => from_string_loop sv (S i) };
        | None => Undefined };
    | right _ =>
        assert (false && true) "Invalid Enum name";; Undefined }.
Proof. lia. Qed.

(** [inline EnumName EnumName_from_string(std::string_view sv)]. *)
Definition EnumName_from_string (sv : string) : outcome Z :=
  from_string_loop sv 0.

(** [inline std::ostream& operator<<(std::ostream& os, EnumName value)]:
    [return os << to_string(value);] on the stream that [os] refers to. *)
Definition operator_insert {K} `{TextSink K} (σ : gmap nat K) (os : nat)
    (value : Z) : outcome (gmap nat K * nat) :=
  sv ← to_string value; ostream_insert σ os sv.

End Generated.

(** ** Vocabulary of the specification *)

(** The enumerators of [es] numbered from [next] on. *)
Definition numbered (next : Z) (es : list ident) : list (ident * Z) :=
  imap (λ i e, (e, next + Z.of_nat i)) es.

(** A name that can be declared in the translation unit: neither a macro
    in scope there nor a keyword. *)
Definition declarable (tu : translation_unit) (e : ident) : Prop :=
  (e ∉ object_macros tu) ∧ (e ∉ keywords tu).

#[export] Instance declarable_dec tu e : Decision (declarable tu e).
Proof. unfold declarable. apply _. Defined.

(** The Enumerator Lists the macro accepts in [tu]: distinct identifiers,
    none of them the marker's own name, few enough for the marker to fit
    [int], and declarable there like [TOTAL] itself. *)
Definition accepted (tu : translation_unit) (ids : list ident) : Prop :=
  NoDup ids ∧ ("TOTAL" ∉ ids) ∧ (Z.of_nat (length ids) ≤ INT_MAX) ∧
  Forall (declarable tu) (ids ++ ["TOTAL"]).

(** What the macro defines for an accepted list, in closed form. *)
Definition artifacts (ids : list ident) : generated :=
  {| enumerators := numbered 0 (ids ++ ["TOTAL"]);
     TOTAL := Z.of_nat (length ids);
     EnumName_names := ids |}.

(** A valid variant: one of the declared enumerators, not the marker. *)
Definition valid_variant (g : generated) (v : Z) : Prop :=
  0 ≤ v ∧ v < TOTAL g.

(** The values an object of the enum type can hold: those of its
    underlying [int]. *)
Definition enum_value (v : Z) : Prop := INT_MIN ≤ v ∧ v ≤ INT_MAX.

(** The count and order properties of the specification for the list [ids]:
    the macro goes through, the marker is worth the number of enumerators,
    the table has as many entries, and position [i] of the list is both
    entry [i] of the table and the enumerator of value [i]. *)
Definition count_and_order (tu : translation_unit) (ids : list ident) : Prop :=
  ∃ g, DEFINE_ENUM_WITH_STRING_CONVERSIONS tu ids = Some g ∧
       lookup_enumerator (enumerators g) "TOTAL" = Some (Z.of_nat (length ids)) ∧
       TOTAL g = Z.of_nat (length ids) ∧
       length (EnumName_names g) = length ids ∧
       ∀ i e, ids !! i = Some e →
              EnumName_names g !! i = Some e ∧
              lookup_enumerator (enumerators g) e = Some (Z.of_nat i).

(** The duplicate-list scenario of the specification for the list [ids] and
    the spelling [s] it repeats at positions [i] and [j]. *)
Definition duplicate_scenario (tu : translation_unit) (ids : list ident)
    (s : string) (i j : nat) : Prop :=
  ∃ g, DEFINE_ENUM_WITH_STRING_CONVERSIONS tu ids = Some g ∧
       Z.of_nat i ≠ Z.of_nat j ∧
       to_string (EnumName_names g) (Z.of_nat i) = Returned s ∧
       to_string (EnumName_names g) (Z.of_nat j) = Returned s ∧
       EnumName_from_string (EnumName_names g) s = Returned (Z.of_nat i).

(** ** The sample enum of [main.cpp] *)

(** The keywords of C++17, the alternative tokens among them. *)
Definition cxx17_keywords : gset string :=
  list_to_set
    ["alignas"; "alignof"; "and"; "and_eq"; "asm"; "auto"; "bitand"; "bitor";
     "bool"; "break"; "case"; "catch"; "char"; "char16_t"; "char32_t";
     "class"; "compl"; "const"; "constexpr"; "const_cast"; "continue";
     "decltype"; "default"; "delete"; "do"; "double"; "dynamic_cast"; "else";
     "enum"; "explicit"; "export"; "extern"; "false"; "float"; "for";
     "friend"; "goto"; "if"; "inline"; "int"; "long"; "mutable"; "namespace";
     "new"; "noexcept"; "not"; "not_eq"; "nullptr"; "operator"; "or";
     "or_eq"; "private"; "protected"; "public"; "register";
     "reinterpret_cast"; "return"; "short"; "signed"; "sizeof"; "static";
     "static_assert"; "static_cast"; "struct"; "switch"; "template"; "this";
     "thread_local"; "throw"; "true"; "try"; "typedef"; "typeid"; "typename";
     "union"; "unsigned"; "using"; "virtual"; "void"; "volatile"; "wchar_t";
     "while"; "xor"; "xor_eq"].

(** A C++17 translation unit in which the header is used with the macros
    [NULL] and [EOF] of the C library in scope. *)
Definition sample_unit : translation_unit :=
  {| object_macros := {[ "NULL"; "EOF" ]}; keywords := cxx17_keywords |}.

(** [#define COLOUR_ENUM(X) X(red) X(green) X(blue)]. *)
Definition COLOUR_ENUM : list ident := ["red"; "green"; "blue"].

(** [DEFINE_ENUM_WITH_STRING_CONVERSIONS(Colour, COLOUR_ENUM)]. *)
Definition Colour : generated := artifacts COLOUR_ENUM.

(** ** Proof automation *)

(** The loop reads [names[i]] only under [i < names.size()]: in its body the
    entry exists. *)
Ltac unreachable_entry :=
  match goal with
  | Hlt : (?i < length ?l)%nat, Hnone : ?l !! ?i = None |- _ =>
      apply lookup_ge_None in Hnone; lia
  end.

(** ** The sample enum, evaluated *)

Example colour :
  DEFINE_ENUM_WITH_STRING_CONVERSIONS sample_unit COLOUR_ENUM
  = Some {| enumerators := [("red", 0); ("green", 1); ("blue", 2); ("TOTAL", 3)];
            TOTAL := 3;
            EnumName_names := ["red"; "green"; "blue"] |}.
Proof. vm_compute. reflexivity. Qed.

Example colour_green : to_string (EnumName_names Colour) 1 = Returned "green".
Proof. vm_compute. reflexivity. Qed.

Example colour_blue :
  EnumName_from_string (EnumName_names Colour) "blue" = Returned 2.
Proof. vm_compute. reflexivity. Qed.

Example colour_purple :
  EnumName_from_string (EnumName_names Colour) "purple"
  = AssertFailed "Invalid Enum name".
Proof. vm_compute. reflexivity. Qed.

(** The comparison is exact: neither another case nor a prefix matches. *)
Example colour_case :
  EnumName_from_string (EnumName_names Colour) "Red"
  = AssertFailed "Invalid Enum name".
Proof. vm_compute. reflexivity. Qed.

Example colour_prefix :
  EnumName_from_string (EnumName_names Colour) "gre"
  = AssertFailed "Invalid Enum name".
Proof. vm_compute. reflexivity. Qed.

(** Outside the enumerators, [to_string] indexes past the table. *)
Example colour_marker : to_string (EnumName_names Colour) (TOTAL Colour) = Undefined.
Proof. vm_compute. reflexivity. Qed.

Example colour_negative : to_string (EnumName_names Colour) (-1) = Undefined.
Proof.
  unfold to_string, array_at.
  change (static_cast_size_t (-1)) with (2 ^ 64 - 1).
  rewrite lookup_ge_None_2; [done |].
  change (length (EnumName_names Colour)) with 3%nat. lia.
Qed.

Example colour_stream :
  operator_insert (EnumName_names Colour) {[ 7%nat := "c = " ]} 7%nat 1
  = Returned ({[ 7%nat := "c = green" ]}, 7%nat).
Proof. vm_compute. reflexivity. Qed.

(** Lists the enum declaration does not take, and the empty one it does. *)
Example repeated_enumerator :
  DEFINE_ENUM_WITH_STRING_CONVERSIONS sample_unit ["red"; "red"; "blue"] = None.
Proof. vm_compute. reflexivity. Qed.

Example enumerator_named_TOTAL :
  DEFINE_ENUM_WITH_STRING_CONVERSIONS sample_unit ["red"; "TOTAL"] = None.
Proof. vm_compute. reflexivity. Qed.

(** [X(NULL)] declares what [NULL] stands for, [X(EOF)] likewise, and
    [X(class)] a keyword: none is an enumerator. *)
Example enumerator_named_NULL :
  DEFINE_ENUM_WITH_STRING_CONVERSIONS sample_unit ["NULL"] = None.
Proof. vm_compute. reflexivity. Qed.

Example enumerator_named_EOF :
  DEFINE_ENUM_WITH_STRING_CONVERSIONS sample_unit ["red"; "EOF"] = None.
Proof. vm_compute. reflexivity. Qed.

Example enumerator_named_class :
  DEFINE_ENUM_WITH_STRING_CONVERSIONS sample_unit ["class"; "red"] = None.
Proof. vm_compute. reflexivity. Qed.

Example no_enumerator :
  DEFINE_ENUM_WITH_STRING_CONVERSIONS sample_unit []
  = Some {| enumerators := [("TOTAL", 0)]; TOTAL := 0; EnumName_names := [] |}.
Proof. vm_compute. reflexivity. Qed.

(** ** Conversions between [int] and [std::size_t] on small values *)

Lemma static_cast_size_t_id v :
  0 ≤ v < 2 ^ SIZE_WIDTH → static_cast_size_t v = v.
Proof. intros Hv. unfold static_cast_size_t. by apply Z.mod_small. Qed.

Lemma static_cast_int_id i :
  0 ≤ i ≤ INT_MAX → static_cast_int i = i.
Proof.
  unfold static_cast_int, INT_MAX. intros Hi.
  rewrite Z.mod_small; lia.
Qed.

Lemma string_view_eq_spec a b : string_view_eq a b = true ↔ a = b.
Proof. apply String.eqb_eq. Qed.

(** ** The scan of [EnumName_from_string] *)

Section Scan.

Variable names : list string.

(** One turn of the loop. *)
Lemma from_string_loop_step sv i :
  from_string_loop names sv i =
    match names !! i with
    | Some s => if string_view_eq s sv
                then Returned (static_cast_int (Z.of_nat i))
                else from_string_loop names sv (S i)
    | None => AssertFailed "Invalid Enum name"
    end.
Proof.
  rewrite from_string_loop_equation_1.
  destruct (decide (i < length names)%nat) as [Hlt|Hge]; simpl.
  - destruct (names !! i) as [s|] eqn:Hs; simpl.
    + by destruct (string_view_eq s sv).
    + apply lookup_ge_None in Hs. lia.
  - by rewrite (proj2 (lookup_ge_None names i)) by lia.
Qed.

(** Entered at [i], the loop stops at the first index from [i] on whose
    entry is [sv]. *)
Lemma from_string_loop_finds sv i k :
  (i ≤ k)%nat →
  names !! k = Some sv →
  (∀ j, (i ≤ j < k)%nat → names !! j ≠ Some sv) →
  from_string_loop names sv i = Returned (static_cast_int (Z.of_nat k)).
Proof.
  intros Hik Hk Hfirst.
  remember (k - i)%nat as d eqn:Hd.
  revert i Hik Hfirst Hd. induction d as [|d IH]; intros i Hik Hfirst Hd.
  - assert (i = k) as -> by lia.
    rewrite from_string_loop_step, Hk.
    by rewrite (proj2 (string_view_eq_spec sv sv)).
  - rewrite from_string_loop_step.
    destruct (names !! i) as [s|] eqn:Hs.
    + destruct (string_view_eq s sv) eqn:Heq.
      * apply string_view_eq_spec in Heq as ->.
        exfalso. apply (Hfirst i); [lia | done].
      * apply IH; [lia | | lia].
        intros j Hj. apply Hfirst. lia.
    + apply lookup_ge_None in Hs. apply lookup_lt_Some in Hk. lia.
Qed.

(** With no entry [sv] from [i] on, the loop runs to the end of the table
    and the assertion fails. *)
Lemma from_string_loop_misses sv i :
  (∀ j, (i ≤ j)%nat → names !! j ≠ Some sv) →
  from_string_loop names sv i = AssertFailed "Invalid Enum name".
Proof.
  funelim (from_string_loop names sv i); intros Hnone.
  - done.
  - unreachable_entry.
  - exfalso. apply (Hnone i); [lia |].
    match goal with
    | Heq : string_view_eq _ _ = true |- _ =>
        apply string_view_eq_spec in Heq as ->
    end.
    done.
  - match goal with
    | IH : _ → from_string_loop _ _ _ = AssertFailed _ |- _ => apply IH
    end.
    intros j Hj. apply Hnone. lia.
Qed.

(** Whatever the loop returns is the cast of the first index from [i] on
    whose entry is [sv]. *)
Lemma from_string_loop_returns sv i v :
  from_string_loop names sv i = Returned v →
  ∃ k, (i ≤ k < length names)%nat ∧ names !! k = Some sv ∧
       (∀ j, (i ≤ j < k)%nat → names !! j ≠ Some sv) ∧
       v = static_cast_int (Z.of_nat k).
Proof.
  funelim (from_string_loop names sv i); intros Hret.
  - done.
  - done.
  - injection Hret as <-. exists i.
    match goal with
    | Heq : string_view_eq _ _ = true |- _ =>
        apply string_view_eq_spec in Heq as ->
    end.
    repeat split; [lia | lia | done | intros j ?; lia].
  - match goal with
    | IH : ∀ v, _ → ex _ |- _ =>
        destruct (IH _ Hret) as (k & Hk & Hlk & Hfirst & ->)
    end.
    exists k. repeat split; [lia | lia | done | ].
    intros j Hj. destruct (decide (j = i)) as [->|Hne].
    + match goal with
      | Hs : names !! i = Some ?s, Heq : string_view_eq ?s _ = false |- _ =>
          rewrite Hs; intros [= ->];
          rewrite (proj2 (string_view_eq_spec sv sv)) in Heq; done
      end.
    + apply Hfirst. lia.
Qed.

End Scan.

(** ** What the macro accepts and what it defines *)

Section Declarations.

Lemma numbered_cons next e es :
  numbered next (e :: es) = (e, next) :: numbered (next + 1) es.
Proof.
  unfold numbered. rewrite imap_cons. f_equal; [f_equal; lia |].
  apply imap_ext. intros i x _. simpl. f_equal. lia.
Qed.

Lemma numbered_names next es : (numbered next es).*1 = es.
Proof.
  revert next. induction es as [|e es IH]; intros next; [done |].
  rewrite numbered_cons. simpl. by rewrite IH.
Qed.

Lemma numbered_lookup next es i e :
  es !! i = Some e → numbered next es !! i = Some (e, next + Z.of_nat i).
Proof. intros Hi. unfold numbered. by rewrite list_lookup_imap, Hi. Qed.

(** A declaration that goes through is one of identifiers that are no
    keywords, and numbers them in order. *)
Lemma declare_enumerators_Some tu declared next toks en :
  declare_enumerators tu declared next toks = Some en →
  ∃ es, toks = Identifier <$> es ∧
        Forall (λ e, e ∉ keywords tu) es ∧
        en = (declared ++ numbered next es)%list ∧
        NoDup es ∧ (∀ e, e ∈ es → e ∉ declared.*1) ∧
        (es ≠ [] → next + Z.of_nat (length es) - 1 ≤ INT_MAX).
Proof.
  revert declared next. induction toks as [|[e|m] toks IH];
    intros declared next; simpl.
  - intros [= <-]. exists []. rewrite app_nil_r.
    repeat split; [constructor | constructor | by intros e ?%elem_of_nil | done].
  - destruct (decide (e ∈ keywords tu)) as [|Hkw]; [done |].
    destruct (decide (e ∈ declared.*1)) as [|Hfresh]; [done |].
    destruct (decide (next ≤ INT_MAX)) as [Hfit|]; [| done].
    intros (es & -> & Hkws & -> & Hnd & Hnew & Hmax)%IH.
    exists (e :: es). rewrite numbered_cons, <- app_assoc. simpl.
    assert (e ∉ es) as He.
    { intros Hin. apply (Hnew e Hin).
      rewrite fmap_app. apply elem_of_app. right. simpl. apply list_elem_of_here. }
    split; [done |]. split; [by constructor |]. split; [done |].
    split; [by constructor |]. split.
    + intros x [->|Hx]%elem_of_cons; [done |].
      intros Hd. apply (Hnew x Hx). rewrite fmap_app. apply elem_of_app. by left.
    + intros _. destruct es as [|e' es']; simpl in *; [lia |].
      specialize (Hmax ltac:(done)). lia.
  - done.
Qed.

(** A list of distinct, undeclared identifiers that are no keywords, short
    enough for [int], is accepted. *)
Lemma declare_enumerators_accepts tu declared next es :
  Forall (λ e, e ∉ keywords tu) es →
  NoDup es → (∀ e, e ∈ es → e ∉ declared.*1) →
  next + Z.of_nat (length es) - 1 ≤ INT_MAX →
  declare_enumerators tu declared next (Identifier <$> es)
  = Some (declared ++ numbered next es)%list.
Proof.
  revert declared next. induction es as [|e es IH];
    intros declared next Hkws Hnd Hnew Hmax; simpl.
  - by rewrite app_nil_r.
  - apply NoDup_cons in Hnd as [He Hnd].
    apply Forall_cons in Hkws as [Hkw Hkws].
    rewrite decide_False by done.
    destruct (decide (e ∈ declared.*1)) as [Hin|_].
    { exfalso. apply (Hnew e); [apply list_elem_of_here | done]. }
    simpl in Hmax.
    destruct (decide (next ≤ INT_MAX)) as [_|]; [| lia].
    rewrite IH; [by rewrite numbered_cons, <- app_assoc | done | done | | lia].
    intros x Hx. rewrite fmap_app. intros [Hd| ->%list_elem_of_singleton]%elem_of_app.
    + apply (Hnew x); [by apply list_elem_of_further | done].
    + done.
Qed.

(** Macro replacement leaves a list of identifiers as it is exactly when
    none of them is a macro. *)
Lemma expand_identifiers tu (l es : list ident) :
  expand tu <$> l = Identifier <$> es ↔
  l = es ∧ Forall (λ e, e ∉ object_macros tu) l.
Proof.
  revert es. induction l as [|x l IH]; intros [|e es]; simpl.
  - split; [by split | done].
  - split; [done | by intros [? _]].
  - split; [done | by intros [? _]].
  - unfold expand at 1. destruct (decide (x ∈ object_macros tu)) as [Hm|Hm].
    + split; [done |]. intros [_ [? _]%Forall_cons]. done.
    + split.
      * intros [= -> [-> Hl]%IH]. split; [done | by constructor].
      * intros [[= -> ->] [_ Hl]%Forall_cons]. f_equal. by apply IH.
Qed.

(** Name lookup among numbered enumerators. *)
Lemma lookup_enumerator_numbered next es i e :
  NoDup es → es !! i = Some e →
  lookup_enumerator (numbered next es) e = Some (next + Z.of_nat i).
Proof.
  revert next i. induction es as [|x es IH]; intros next i Hnd Hi; [done |].
  rewrite numbered_cons. simpl. apply NoDup_cons in Hnd as [Hx Hnd].
  destruct i as [|i]; simpl in Hi.
  - injection Hi as ->. rewrite decide_True by done. f_equal. lia.
  - rewrite decide_False.
    + rewrite (IH _ i) by done. f_equal. lia.
    + intros ->. apply Hx. by eapply list_elem_of_lookup_2.
Qed.

End Declarations.

Section Characterisation.

Lemma enumerator_list_eq tu ids :
  enumerator_list tu ids = expand tu <$> (ids ++ ["TOTAL"])%list.
Proof.
  unfold enumerator_list, ENUM_DEF, EU_ENUM_DECLARE, marker.
  by rewrite fmap_app.
Qed.

Lemma names_initialisers ids : ENUM_DEF ids EU_ENUM_STRING = ids.
Proof. unfold ENUM_DEF, EU_ENUM_STRING. apply list_fmap_id. Qed.

Lemma array_init_exact l : array_init (length l) l = Some l.
Proof.
  unfold array_init. rewrite decide_True by done.
  rewrite Nat.sub_diag. simpl. by rewrite app_nil_r.
Qed.

Lemma declared_names_NoDup (ids : list ident) :
  NoDup ids → "TOTAL" ∉ ids → NoDup (ids ++ ["TOTAL"]).
Proof.
  intros Hnd Hmarker. apply NoDup_app.
  repeat split; [done | | apply NoDup_singleton].
  by intros x Hx ->%list_elem_of_singleton.
Qed.

Lemma marker_lookup ids :
  NoDup ids → "TOTAL" ∉ ids →
  lookup_enumerator (numbered 0 (ids ++ ["TOTAL"])) "TOTAL"
  = Some (Z.of_nat (length ids)).
Proof.
  intros Hnd Hfree.
  rewrite (lookup_enumerator_numbered 0 _ (length ids)); [f_equal; lia | |].
  - by apply declared_names_NoDup.
  - by rewrite lookup_app_r, Nat.sub_diag.
Qed.

(** Each declared name is declarable exactly when it is neither a macro nor
    a keyword. *)
Lemma Forall_declarable tu (l : list ident) :
  Forall (declarable tu) l ↔
  Forall (λ e, e ∉ object_macros tu) l ∧ Forall (λ e, e ∉ keywords tu) l.
Proof. unfold declarable. apply Forall_and. Qed.

Lemma marker_not_macro tu (ids : list ident) :
  Forall (λ e, e ∉ object_macros tu) (ids ++ ["TOTAL"]) →
  "TOTAL" ∉ object_macros tu.
Proof.
  intros Hall. apply (proj1 (Forall_forall _ _) Hall).
  apply elem_of_app. right. apply list_elem_of_here.
Qed.

(** With [TOTAL] declarable, the marker stays the identifier it is. *)
Lemma marker_identifier tu :
  "TOTAL" ∉ object_macros tu → marker tu = Identifier "TOTAL".
Proof. intros Hm. unfold marker, expand. by rewrite decide_False. Qed.

(** The macro goes through exactly on the accepted lists, and then defines
    [artifacts]. *)
Theorem DEFINE_ENUM_Some tu ids g :
  DEFINE_ENUM_WITH_STRING_CONVERSIONS tu ids = Some g ↔
  accepted tu ids ∧ g = artifacts ids.
Proof.
  unfold DEFINE_ENUM_WITH_STRING_CONVERSIONS, accepted. split.
  - intros Hgen.
    destruct (declare_enumerators tu [] 0 (enumerator_list tu ids))
      as [en|] eqn:Hen; [| done].
    simpl in Hgen.
    apply declare_enumerators_Some
      in Hen as (es & Hes & Hkws & -> & Hnd & _ & Hmax).
    rewrite enumerator_list_eq in Hes.
    apply expand_identifiers in Hes as [<- Hmacros].
    assert (Forall (declarable tu) (ids ++ ["TOTAL"])) as Hdecl
      by by apply Forall_declarable.
    apply NoDup_app in Hnd as (Hnd & Hfree & _).
    assert ("TOTAL" ∉ ids) as Hmarker.
    { intros Hin. apply (Hfree _ Hin), list_elem_of_here. }
    specialize (Hmax ltac:(by destruct ids)).
    rewrite length_app in Hmax. simpl in Hmax.
    assert (Z.of_nat (length ids) ≤ INT_MAX) as Hfit by lia.
    rewrite marker_identifier in Hgen.
    2:{ by eapply marker_not_macro. }
    simpl in Hgen. rewrite marker_lookup in Hgen by done. simpl in Hgen.
    rewrite static_cast_size_t_id, Nat2Z.id, names_initialisers,
      array_init_exact in Hgen by (unfold INT_MAX, SIZE_WIDTH in *; lia).
    simpl in Hgen. by injection Hgen as <-.
  - intros ((Hnd & Hmarker & Hfit & Hdecl) & ->).
    apply Forall_declarable in Hdecl as [Hmacros Hkws].
    rewrite enumerator_list_eq.
    rewrite (proj2 (expand_identifiers tu _ (ids ++ ["TOTAL"]))) by done.
    rewrite declare_enumerators_accepts.
    + simpl. rewrite marker_identifier.
      2:{ by eapply marker_not_macro. }
      rewrite marker_lookup by done. simpl.
      rewrite static_cast_size_t_id, Nat2Z.id, names_initialisers,
        array_init_exact by (unfold INT_MAX, SIZE_WIDTH in *; lia).
      done.
    + done.
    + by apply declared_names_NoDup.
    + by intros e _ ?%elem_of_nil.
    + rewrite length_app. simpl. lia.
Qed.

End Characterisation.

(** ** The conversions over a table that fits [int] *)

Section Tables.

Variable names : list string.
Hypothesis names_fit : Z.of_nat (length names) ≤ INT_MAX.

Lemma to_string_entry v e :
  0 ≤ v → names !! Z.to_nat v = Some e → to_string names v = Returned e.
Proof.
  intros Hv He. unfold to_string, array_at.
  apply lookup_lt_Some in He as Hlt.
  rewrite static_cast_size_t_id by (unfold INT_MAX, SIZE_WIDTH in *; lia).
  by rewrite He.
Qed.

Lemma from_string_first s i :
  names !! i = Some s →
  (∀ j, (j < i)%nat → names !! j ≠ Some s) →
  EnumName_from_string names s = Returned (Z.of_nat i).
Proof.
  intros Hi Hfirst. unfold EnumName_from_string.
  rewrite (from_string_loop_finds names s 0 i); [| lia | done |].
  - apply lookup_lt_Some in Hi. by rewrite static_cast_int_id by lia.
  - intros j Hj. apply Hfirst. lia.
Qed.

Lemma from_string_Returned s v :
  EnumName_from_string names s = Returned v →
  ∃ i, v = Z.of_nat i ∧ (i < length names)%nat ∧ names !! i = Some s ∧
       ∀ j, (j < i)%nat → names !! j ≠ Some s.
Proof.
  intros (k & Hk & Hs & Hfirst & ->)%from_string_loop_returns.
  exists k. rewrite static_cast_int_id by lia.
  repeat split; [lia | done |]. intros j Hj. apply Hfirst. lia.
Qed.

End Tables.

Lemma from_string_absent (names : list string) s :
  s ∉ names → EnumName_from_string names s = AssertFailed "Invalid Enum name".
Proof.
  intros Hs. apply from_string_loop_misses.
  intros j _ Hj. apply Hs. by eapply list_elem_of_lookup_2.
Qed.

(** An entry of a table has a first position. *)
Lemma first_occurrence (names : list string) s :
  s ∈ names →
  ∃ i, names !! i = Some s ∧ ∀ j, (j < i)%nat → names !! j ≠ Some s.
Proof.
  intros Hs.
  destruct (list_find_elem_of (λ x, x = s) names s Hs eq_refl) as [[i x] Hfind].
  apply list_find_Some in Hfind as (Hi & -> & Hfirst).
  exists i. split; [done |].
  intros j Hj Hjs. by apply (Hfirst j s).
Qed.

(** What holds of everything the macro defines. *)
Lemma generated_table tu ids g :
  DEFINE_ENUM_WITH_STRING_CONVERSIONS tu ids = Some g →
  EnumName_names g = ids ∧ TOTAL g = Z.of_nat (length ids) ∧
  NoDup (EnumName_names g) ∧ Z.of_nat (length (EnumName_names g)) ≤ INT_MAX.
Proof. by intros [(Hnd & _ & Hfit & _) ->]%DEFINE_ENUM_Some. Qed.

(** In a generated enum, the enumerator at position [i] of the list has
    value [i]. *)
Lemma enumerator_value tu ids i e :
  accepted tu ids → ids !! i = Some e →
  lookup_enumerator (enumerators (artifacts ids)) e = Some (Z.of_nat i).
Proof.
  intros (Hnd & Hmarker & _) Hi. simpl.
  rewrite (lookup_enumerator_numbered 0 _ i); [f_equal; lia | |].
  - by apply declared_names_NoDup.
  - by apply lookup_app_l_Some.
Qed.

(** A valid variant of a generated enum indexes an entry of the table, the
    identifier at that position of the list. *)
Lemma valid_variant_entry tu ids g v :
  DEFINE_ENUM_WITH_STRING_CONVERSIONS tu ids = Some g →
  valid_variant g v →
  ∃ e, ids !! Z.to_nat v = Some e ∧
       EnumName_names g !! Z.to_nat v = Some e ∧
       to_string (EnumName_names g) v = Returned e.
Proof.
  intros [(_ & _ & Hfit & _) ->]%DEFINE_ENUM_Some [Hv0 HvN]. simpl in HvN.
  destruct (lookup_lt_is_Some_2 ids (Z.to_nat v)) as [e He]; [lia |].
  exists e. change (EnumName_names (artifacts ids)) with ids.
  repeat split; [done | done | by apply to_string_entry].
Qed.

(** The scan as a search: the first index whose entry is [sv], or the failed
    assertion; its behaviour is never undefined. *)
Lemma from_string_list_find (names : list string) sv :
  EnumName_from_string names sv =
    match list_find (λ s, s = sv) names with
    | Some (i, _) => Returned (static_cast_int (Z.of_nat i))
    | None => AssertFailed "Invalid Enum name"
    end.
Proof.
  destruct (list_find (λ s, s = sv) names) as [[i x]|] eqn:Hfind.
  - apply list_find_Some in Hfind as (Hi & -> & Hfirst).
    apply from_string_loop_finds; [lia | done |].
    intros j Hj Hjs. by apply (Hfirst j sv); [| lia |].
  - apply from_string_absent. intros Hin.
    apply list_find_None in Hfind.
    by apply (proj1 (Forall_forall _ _) Hfind sv).
Qed.

(** ** The properties of the specification *)

(** C1. [EnumName_from_string] scans the Name Table from index 0 upward with
    exact string comparison: for an input [s] that some entry equals, it
    returns the variant whose ordinal is the smallest index [i] with
    [NameTable[i] == s]. *)
Theorem from_string_first_match tu ids g s :
  DEFINE_ENUM_WITH_STRING_CONVERSIONS tu ids = Some g →
  s ∈ EnumName_names g →
  ∃ i, EnumName_names g !! i = Some s ∧
       (∀ j, (j < i)%nat → EnumName_names g !! j ≠ Some s) ∧
       EnumName_from_string (EnumName_names g) s = from_string_loop (EnumName_names g) s 0 ∧
       EnumName_from_string (EnumName_names g) s = Returned (Z.of_nat i).
Proof.
  intros (_ & _ & _ & Hfit)%generated_table Hs.
  destruct (first_occurrence _ _ Hs) as (i & Hi & Hfirst).
  exists i. repeat split; [done | done |].
  by apply from_string_first.
Qed.

Lemma from_string_first_match_witness :
  ∃ i, EnumName_names Colour !! i = Some "blue" ∧
       (∀ j, (j < i)%nat → EnumName_names Colour !! j ≠ Some "blue") ∧
       EnumName_from_string (EnumName_names Colour) "blue"
         = from_string_loop (EnumName_names Colour) "blue" 0 ∧
       EnumName_from_string (EnumName_names Colour) "blue" = Returned (Z.of_nat i).
Proof.
  apply (from_string_first_match sample_unit COLOUR_ENUM Colour "blue").
  - vm_compute. reflexivity.
  - apply (list_elem_of_lookup_2 _ 2%nat). reflexivity.
Defined.

(** C2. For a valid variant [v], of ordinal 0..N-1, [to_string] returns
    [NameTable[ordinal(v)]], which is the source spelling of the enumerator
    of that value. *)
Theorem to_string_spelling tu ids g v :
  DEFINE_ENUM_WITH_STRING_CONVERSIONS tu ids = Some g →
  valid_variant g v →
  ∃ e, EnumName_names g !! Z.to_nat v = Some e ∧
       to_string (EnumName_names g) v = Returned e ∧
       ids !! Z.to_nat v = Some e ∧
       lookup_enumerator (enumerators g) e = Some v.
Proof.
  intros Hgen Hv.
  destruct (valid_variant_entry _ _ _ _ Hgen Hv) as (e & Hid & He & Hstr).
  exists e. repeat split; [done | done | done |].
  apply DEFINE_ENUM_Some in Hgen as [Hacc ->]. destruct Hv as [Hv0 _].
  rewrite (enumerator_value tu ids (Z.to_nat v) e) by done.
  f_equal. lia.
Qed.

Lemma to_string_spelling_witness :
  ∃ e, EnumName_names Colour !! Z.to_nat 1 = Some e ∧
       to_string (EnumName_names Colour) 1 = Returned e ∧
       COLOUR_ENUM !! Z.to_nat 1 = Some e ∧
       lookup_enumerator (enumerators Colour) e = Some 1.
Proof.
  apply (to_string_spelling sample_unit COLOUR_ENUM Colour 1).
  - vm_compute. reflexivity.
  - split; vm_compute; [discriminate | reflexivity].
Defined.

(** C3. For every valid ordinal [i] in 0..N-1,
    [from_string(to_string(variant(i))) == variant(i)]. *)
Theorem from_string_to_string tu ids g v :
  DEFINE_ENUM_WITH_STRING_CONVERSIONS tu ids = Some g →
  valid_variant g v →
  to_string (EnumName_names g) v ≫= EnumName_from_string (EnumName_names g)
  = Returned v.
Proof.
  intros Hgen Hv.
  destruct (valid_variant_entry _ _ _ _ Hgen Hv) as (e & _ & He & ->).
  apply generated_table in Hgen as (_ & _ & Hnd & Hfit).
  destruct Hv as [Hv0 _]. simpl.
  rewrite (from_string_first _ Hfit e (Z.to_nat v)); [f_equal; lia | done |].
  intros j Hj Hje.
  pose proof (NoDup_lookup _ _ _ _ Hnd Hje He). lia.
Qed.

Lemma from_string_to_string_witness :
  to_string (EnumName_names Colour) 2 ≫= EnumName_from_string (EnumName_names Colour)
  = Returned 2.
Proof.
  apply (from_string_to_string sample_unit COLOUR_ENUM Colour 2).
  - vm_compute. reflexivity.
  - split; vm_compute; [discriminate | reflexivity].
Defined.

(** C4. For every spelling [s] in the Name Table,
    [to_string(from_string(s)) == s]. *)
Theorem to_string_from_string tu ids g s :
  DEFINE_ENUM_WITH_STRING_CONVERSIONS tu ids = Some g →
  s ∈ EnumName_names g →
  EnumName_from_string (EnumName_names g) s ≫= to_string (EnumName_names g)
  = Returned s.
Proof.
  intros (_ & _ & _ & Hfit)%generated_table Hs.
  destruct (first_occurrence _ _ Hs) as (i & Hi & Hfirst).
  rewrite (from_string_first _ Hfit s i) by done. simpl.
  apply to_string_entry; [done | lia |]. by rewrite Nat2Z.id.
Qed.

Lemma to_string_from_string_witness :
  EnumName_from_string (EnumName_names Colour) "green" ≫= to_string (EnumName_names Colour)
  = Returned "green".
Proof.
  apply (to_string_from_string sample_unit COLOUR_ENUM Colour "green").
  - vm_compute. reflexivity.
  - apply (list_elem_of_lookup_2 _ 1%nat). reflexivity.
Defined.

(** C5. For an input absent from the Name Table, [EnumName_from_string]
    stops the program in its assertion; it returns no variant at all. *)
Theorem from_string_unknown (names : list string) s :
  s ∉ names →
  EnumName_from_string names s = AssertFailed "Invalid Enum name" ∧
  ∀ v, EnumName_from_string names s ≠ Returned v.
Proof.
  intros Hs. rewrite (from_string_absent names s Hs). by split.
Qed.

Lemma from_string_unknown_witness :
  EnumName_from_string (EnumName_names Colour) "purple"
    = AssertFailed "Invalid Enum name" ∧
  ∀ v, EnumName_from_string (EnumName_names Colour) "purple" ≠ Returned v.
Proof.
  apply (from_string_unknown (EnumName_names Colour) "purple").
  apply (bool_decide_unpack _). vm_compute. reflexivity.
Defined.

(** The enum cannot declare a second enumerator named like its marker:
    [X(TOTAL)] expands to [enum class EnumName { TOTAL, TOTAL };]. *)
Lemma marker_name_rejected tu ids :
  "TOTAL" ∈ ids → DEFINE_ENUM_WITH_STRING_CONVERSIONS tu ids = None.
Proof.
  intros Hin.
  destruct (DEFINE_ENUM_WITH_STRING_CONVERSIONS tu ids) as [g|] eqn:Hgen; [| done].
  by apply DEFINE_ENUM_Some in Hgen as [(_ & Hmarker & _) _].
Qed.

(** Nor one more enumerator than [int] has values for the marker. *)
Lemma overlong_rejected tu ids :
  INT_MAX < Z.of_nat (length ids) →
  DEFINE_ENUM_WITH_STRING_CONVERSIONS tu ids = None.
Proof.
  intros Hlong.
  destruct (DEFINE_ENUM_WITH_STRING_CONVERSIONS tu ids) as [g|] eqn:Hgen; [| done].
  apply DEFINE_ENUM_Some in Hgen as [(_ & _ & Hfit & _) _]. lia.
Qed.

(** Nor can it declare an enumerator twice. *)
Lemma duplicate_rejected tu ids :
  ¬ NoDup ids → DEFINE_ENUM_WITH_STRING_CONVERSIONS tu ids = None.
Proof.
  intros Hdup.
  destruct (DEFINE_ENUM_WITH_STRING_CONVERSIONS tu ids) as [g|] eqn:Hgen; [| done].
  by apply DEFINE_ENUM_Some in Hgen as [(Hnd & _) _].
Qed.

(** Nor can it declare a keyword, or what the name of a macro stands for;
    this goes for the marker's own name too. *)
Lemma undeclarable_rejected tu ids e :
  e ∈ (ids ++ ["TOTAL"])%list → ¬ declarable tu e →
  DEFINE_ENUM_WITH_STRING_CONVERSIONS tu ids = None.
Proof.
  intros Hin Hno.
  destruct (DEFINE_ENUM_WITH_STRING_CONVERSIONS tu ids) as [g|] eqn:Hgen; [| done].
  apply DEFINE_ENUM_Some in Hgen as [(_ & _ & _ & Hdecl) _].
  exfalso. apply Hno. by apply (proj1 (Forall_forall _ _) Hdecl).
Qed.

(** C6, as stated, fails on a duplicate-free list of one identifier: the
    list that names its enumerator [TOTAL] defines nothing. *)
Lemma count_and_order_counterexample :
  NoDup ["TOTAL"] ∧ (1 ≤ length ["TOTAL"])%nat ∧ ¬ count_and_order sample_unit ["TOTAL"].
Proof.
  split; [apply NoDup_singleton |]. split; [simpl; lia |].
  intros (g & Hgen & _).
  rewrite marker_name_rejected in Hgen; [done | apply list_elem_of_here].
Qed.

(** C6, amended. For every duplicate-free Enumerator List of N >= 1
    identifiers, none of them spelled [TOTAL], none of them, nor [TOTAL],
    the name of a macro in scope or a keyword, and N within the range of
    [int], the terminal marker's ordinal equals N and the Name Table has
    exactly N entries, entry [i] being the spelling of the enumerator of
    ordinal [i] in the declared order. *)
Theorem count_and_order_accepted tu ids :
  NoDup ids → (1 ≤ length ids)%nat →
  "TOTAL" ∉ ids → Z.of_nat (length ids) ≤ INT_MAX →
  Forall (declarable tu) (ids ++ ["TOTAL"]) →
  count_and_order tu ids.
Proof.
  intros Hnd _ Hmarker Hfit Hdecl.
  assert (accepted tu ids) as Hacc by done.
  exists (artifacts ids). split; [by apply DEFINE_ENUM_Some |].
  split; [by apply marker_lookup |].
  repeat split; [done |]. by apply (enumerator_value tu).
Qed.

Lemma count_and_order_accepted_witness : count_and_order sample_unit COLOUR_ENUM.
Proof.
  apply (count_and_order_accepted sample_unit COLOUR_ENUM).
  - apply (bool_decide_unpack _). vm_compute. reflexivity.
  - vm_compute. lia.
  - apply (bool_decide_unpack _). vm_compute. reflexivity.
  - vm_compute. discriminate.
  - apply (bool_decide_unpack _). vm_compute. reflexivity.
Defined.

(** C7, as stated, fails on [[red, red, blue]]: the list defines no enum,
    hence no variants of ordinal 0 and 1 to render or to parse into. *)
Lemma duplicate_scenario_counterexample :
  ¬ duplicate_scenario sample_unit ["red"; "red"; "blue"] "red" 0 1.
Proof.
  intros (g & Hgen & _). vm_compute in Hgen. discriminate.
Qed.

(** C7, amended. An Enumerator List that spells [s] at two positions
    [i < j], such as [[red, red, blue]], is rejected: the enum would declare
    an enumerator twice.  On the table the list spells out, [to_string]
    renders both indices as [s], and [EnumName_from_string] resolves [s] to
    the first index [k] whose entry is [s], which is no later than [i] and
    never [j]. *)
Theorem duplicate_first_match_wins tu ids s i j :
  (i < j)%nat → ids !! i = Some s → ids !! j = Some s →
  Z.of_nat (length ids) ≤ INT_MAX →
  DEFINE_ENUM_WITH_STRING_CONVERSIONS tu ids = None ∧
  to_string (ENUM_DEF ids EU_ENUM_STRING) (Z.of_nat i) = Returned s ∧
  to_string (ENUM_DEF ids EU_ENUM_STRING) (Z.of_nat j) = Returned s ∧
  ∃ k, (k ≤ i)%nat ∧
       ENUM_DEF ids EU_ENUM_STRING !! k = Some s ∧
       (∀ m, (m < k)%nat → ENUM_DEF ids EU_ENUM_STRING !! m ≠ Some s) ∧
       EnumName_from_string (ENUM_DEF ids EU_ENUM_STRING) s = Returned (Z.of_nat k) ∧
       EnumName_from_string (ENUM_DEF ids EU_ENUM_STRING) s ≠ Returned (Z.of_nat j).
Proof.
  intros Hij Hi Hj Hfit. rewrite names_initialisers. split.
  { apply duplicate_rejected. intros Hnd.
    pose proof (NoDup_lookup _ _ _ _ Hnd Hi Hj). lia. }
  split; [apply to_string_entry; [done | lia | by rewrite Nat2Z.id] |].
  split; [apply to_string_entry; [done | lia | by rewrite Nat2Z.id] |].
  destruct (first_occurrence ids s) as (k & Hk & Hfirst);
    [by eapply list_elem_of_lookup_2 |].
  assert (k ≤ i)%nat as Hki.
  { destruct (decide (k ≤ i)%nat) as [|Hgt]; [done |].
    exfalso. apply (Hfirst i); [lia | done]. }
  exists k. rewrite (from_string_first _ Hfit s k) by done.
  repeat split; [done | done | done |]. intros [= Heq]. lia.
Qed.

Lemma duplicate_first_match_wins_witness :
  DEFINE_ENUM_WITH_STRING_CONVERSIONS sample_unit ["red"; "red"; "blue"] = None ∧
  to_string (ENUM_DEF ["red"; "red"; "blue"] EU_ENUM_STRING) (Z.of_nat 0) = Returned "red" ∧
  to_string (ENUM_DEF ["red"; "red"; "blue"] EU_ENUM_STRING) (Z.of_nat 1) = Returned "red" ∧
  ∃ k, (k ≤ 0)%nat ∧
       ENUM_DEF ["red"; "red"; "blue"] EU_ENUM_STRING !! k = Some "red" ∧
       (∀ m, (m < k)%nat →
             ENUM_DEF ["red"; "red"; "blue"] EU_ENUM_STRING !! m ≠ Some "red") ∧
       EnumName_from_string (ENUM_DEF ["red"; "red"; "blue"] EU_ENUM_STRING) "red"
         = Returned (Z.of_nat k) ∧
       EnumName_from_string (ENUM_DEF ["red"; "red"; "blue"] EU_ENUM_STRING) "red"
         ≠ Returned (Z.of_nat 1).
Proof.
  apply (duplicate_first_match_wins sample_unit ["red"; "red"; "blue"] "red" 0 1).
  - lia.
  - reflexivity.
  - reflexivity.
  - vm_compute. discriminate.
Defined.

(** C8. For a valid variant, the index [to_string] reads the Name Table at
    is in bounds: an entry exists there and [to_string] returns it.  For the
    terminal marker the index is N, one past the last entry, and the
    behaviour of [to_string] is undefined. *)
Theorem to_string_index tu ids g v :
  DEFINE_ENUM_WITH_STRING_CONVERSIONS tu ids = Some g →
  valid_variant g v →
  (Z.to_nat (static_cast_size_t v) < length (EnumName_names g))%nat ∧
  (∃ e, EnumName_names g !! Z.to_nat (static_cast_size_t v) = Some e ∧
        to_string (EnumName_names g) v = Returned e) ∧
  ¬ valid_variant g (TOTAL g) ∧
  Z.to_nat (static_cast_size_t (TOTAL g)) = length (EnumName_names g) ∧
  EnumName_names g !! Z.to_nat (static_cast_size_t (TOTAL g)) = None ∧
  to_string (EnumName_names g) (TOTAL g) = Undefined.
Proof.
  intros Hgen Hv.
  destruct (valid_variant_entry _ _ _ _ Hgen Hv) as (e & _ & He & Hstr).
  apply DEFINE_ENUM_Some in Hgen as [(_ & _ & Hfit & _) ->].
  destruct Hv as [Hv0 HvN]. simpl in *.
  assert (static_cast_size_t v = v) as Hidx
    by (apply static_cast_size_t_id; unfold INT_MAX, SIZE_WIDTH in *; lia).
  assert (static_cast_size_t (Z.of_nat (length ids)) = Z.of_nat (length ids))
    as HidxN
    by (apply static_cast_size_t_id; unfold INT_MAX, SIZE_WIDTH in *; lia).
  rewrite Hidx. split; [lia |]. split; [by exists e |].
  unfold to_string, array_at. rewrite HidxN, Nat2Z.id.
  rewrite !lookup_ge_None_2 by done.
  repeat split. intros [_ Hlt]. simpl in Hlt. lia.
Qed.

Lemma to_string_index_witness :
  (Z.to_nat (static_cast_size_t 0) < length (EnumName_names Colour))%nat ∧
  (∃ e, EnumName_names Colour !! Z.to_nat (static_cast_size_t 0) = Some e ∧
        to_string (EnumName_names Colour) 0 = Returned e) ∧
  ¬ valid_variant Colour (TOTAL Colour) ∧
  Z.to_nat (static_cast_size_t (TOTAL Colour)) = length (EnumName_names Colour) ∧
  EnumName_names Colour !! Z.to_nat (static_cast_size_t (TOTAL Colour)) = None ∧
  to_string (EnumName_names Colour) (TOTAL Colour) = Undefined.
Proof.
  apply (to_string_index sample_unit COLOUR_ENUM Colour 0).
  - vm_compute. reflexivity.
  - split; vm_compute; [discriminate | reflexivity].
Defined.

(** C9. For a valid variant [v] and any text sink, the stream insertion
    operator hands the sink exactly [to_string(v)], once and as it is, and
    returns the reference it was given. *)
Theorem stream_insertion tu {K} `{TextSink K} ids g v (σ : gmap nat K) os k :
  DEFINE_ENUM_WITH_STRING_CONVERSIONS tu ids = Some g →
  valid_variant g v →
  σ !! os = Some k →
  ∃ s, to_string (EnumName_names g) v = Returned s ∧
       operator_insert (EnumName_names g) σ os v
       = Returned (<[os := sink_put k s]> σ, os).
Proof.
  intros Hgen Hv Hos.
  destruct (valid_variant_entry _ _ _ _ Hgen Hv) as (e & _ & _ & He).
  exists e. split; [done |].
  unfold operator_insert. rewrite He. simpl.
  unfold ostream_insert. by rewrite Hos.
Qed.

Lemma stream_insertion_witness :
  ∃ s, to_string (EnumName_names Colour) 1 = Returned s ∧
       operator_insert (EnumName_names Colour) {[ 7%nat := "c = " ]} 7%nat 1
       = Returned (<[7%nat := sink_put "c = " s]> {[ 7%nat := "c = " ]}, 7%nat).
Proof.
  apply (stream_insertion sample_unit COLOUR_ENUM Colour 1 {[ 7%nat := "c = " ]} 7%nat "c = ").
  - vm_compute. reflexivity.
  - split; vm_compute; [discriminate | reflexivity].
  - vm_compute. reflexivity.
Defined.

(** C10. Whatever [EnumName_from_string] returns is a valid variant, of
    ordinal below N; it is never the terminal marker. *)
Theorem from_string_valid tu ids g s v :
  DEFINE_ENUM_WITH_STRING_CONVERSIONS tu ids = Some g →
  EnumName_from_string (EnumName_names g) s = Returned v →
  valid_variant g v ∧ v ≠ TOTAL g ∧
  (Z.to_nat v < length (EnumName_names g))%nat.
Proof.
  intros (Hnames & HN & _ & Hfit)%generated_table Hret.
  apply (from_string_Returned _ Hfit) in Hret as (i & -> & Hi & _).
  unfold valid_variant. rewrite HN, <- Hnames. lia.
Qed.

Lemma from_string_valid_witness :
  valid_variant Colour 2 ∧ 2 ≠ TOTAL Colour ∧
  (Z.to_nat 2 < length (EnumName_names Colour))%nat.
Proof.
  apply (from_string_valid sample_unit COLOUR_ENUM Colour "blue" 2).
  - vm_compute. reflexivity.
  - vm_compute. reflexivity.
Defined.

(** ** Further properties of the generated code *)

(** [to_string] of a value that is no index of the table reads past it. *)
Lemma to_string_outside (names : list string) v :
  Z.of_nat (length names) ≤ INT_MAX → enum_value v →
  ¬ (0 ≤ v ∧ v < Z.of_nat (length names)) →
  to_string names v = Undefined.
Proof.
  unfold enum_value, INT_MIN, INT_MAX. intros Hfit [Hlo Hhi] Hout.
  unfold to_string, array_at, static_cast_size_t, SIZE_WIDTH.
  rewrite lookup_ge_None_2; [done |].
  destruct (decide (0 ≤ v)) as [Hpos|Hneg].
  - rewrite Z.mod_small by lia. lia.
  - assert (v `mod` 2 ^ 64 = v + 2 ^ 64) as ->.
    { symmetry. apply (Z.mod_unique v (2 ^ 64) (-1)); lia. }
    lia.
Qed.

(** X1. In a translation unit none of whose macros stands for an
    identifier, the macro is rejected exactly on the lists that repeat an
    identifier, that contain an identifier spelled [TOTAL], that have more
    identifiers than [INT_MAX], or one of whose identifiers, if not [TOTAL]
    itself, is the name of a macro in scope or a keyword. *)
Theorem macro_rejected_iff tu ids :
  DEFINE_ENUM_WITH_STRING_CONVERSIONS tu ids = None ↔
  ¬ NoDup ids ∨ "TOTAL" ∈ ids ∨ INT_MAX < Z.of_nat (length ids) ∨
  ∃ e, e ∈ (ids ++ ["TOTAL"])%list ∧ (e ∈ object_macros tu ∨ e ∈ keywords tu).
Proof.
  split.
  - intros Hnone.
    destruct (decide (NoDup ids)) as [Hnd|]; [| by left].
    destruct (decide ("TOTAL" ∈ ids)) as [|Hmarker]; [by right; left |].
    destruct (decide (INT_MAX < Z.of_nat (length ids))) as [|Hfit];
      [by right; right; left |].
    destruct (decide (Forall (declarable tu) (ids ++ ["TOTAL"])))
      as [Hdecl|Hundecl].
    + exfalso.
      assert (DEFINE_ENUM_WITH_STRING_CONVERSIONS tu ids = Some (artifacts ids))
        as Hgen.
      { apply DEFINE_ENUM_Some. repeat split; [done | done | lia | done]. }
      congruence.
    + right; right; right.
      apply not_Forall_Exists in Hundecl; [| apply _].
      apply Exists_exists in Hundecl as (e & He & Hno).
      exists e. split; [done |]. unfold declarable in Hno.
      destruct (decide (e ∈ object_macros tu)) as [|Hm]; [by left |].
      destruct (decide (e ∈ keywords tu)) as [|Hk]; [by right |].
      exfalso. by apply Hno.
  - intros [Hdup | [Hmarker | [Hlong | (e & He & Hres)]]].
    + by apply duplicate_rejected.
    + by apply marker_name_rejected.
    + by apply overlong_rejected.
    + apply (undeclarable_rejected tu ids e He).
      intros [Hm Hk]. by destruct Hres.
Qed.

(** X2. On every table and every input, [EnumName_from_string] either
    returns the cast of an index of the table whose entry is the input, or
    stops in its assertion, the input being absent; its behaviour is never
    undefined. *)
Theorem from_string_in_bounds (names : list string) sv :
  (∃ i, (i < length names)%nat ∧ names !! i = Some sv ∧
        EnumName_from_string names sv = Returned (static_cast_int (Z.of_nat i))) ∨
  ((sv ∉ names) ∧
   EnumName_from_string names sv = AssertFailed "Invalid Enum name").
Proof.
  destruct (decide (sv ∈ names)) as [Hin|Hout].
  - left. destruct (first_occurrence _ _ Hin) as (i & Hi & Hfirst).
    exists i. repeat split; [by eapply lookup_lt_Some | done |].
    apply from_string_loop_finds; [lia | done |].
    intros j Hj. apply Hfirst. lia.
  - right. split; [done | by apply from_string_absent].
Qed.

(** X3. In a generated enum the two conversions are inverse of each other:
    [EnumName_from_string] returns [v] on [s] exactly when [v] is a valid
    variant and [to_string] returns [s] on it. *)
Theorem conversions_inverse tu ids g s v :
  DEFINE_ENUM_WITH_STRING_CONVERSIONS tu ids = Some g →
  EnumName_from_string (EnumName_names g) s = Returned v ↔
  valid_variant g v ∧ to_string (EnumName_names g) v = Returned s.
Proof.
  intros Hgen.
  pose proof (generated_table _ _ _ Hgen) as (Hnames & HN & Hnd & Hfit).
  split.
  - intros (i & -> & Hi & His & _)%(from_string_Returned _ Hfit).
    split.
    + unfold valid_variant. rewrite HN, <- Hnames. lia.
    + apply to_string_entry; [done | lia | by rewrite Nat2Z.id].
  - intros [Hv Hs].
    destruct (valid_variant_entry _ _ _ _ Hgen Hv) as (e & _ & He & Hstr).
    rewrite Hstr in Hs. injection Hs as ->. destruct Hv as [Hv0 _].
    rewrite (from_string_first _ Hfit s (Z.to_nat v)); [f_equal; lia | done |].
    intros j Hj Hjs. pose proof (NoDup_lookup _ _ _ _ Hnd Hjs He). lia.
Qed.

Lemma conversions_inverse_witness :
  EnumName_from_string (EnumName_names Colour) "green" = Returned 1 ↔
  valid_variant Colour 1 ∧ to_string (EnumName_names Colour) 1 = Returned "green".
Proof.
  apply (conversions_inverse sample_unit COLOUR_ENUM Colour "green" 1).
  vm_compute. reflexivity.
Defined.

(** X4. In a generated enum, [to_string] returns normally exactly on the
    valid variants: on every other value of the enum type, negative, the
    marker or above it, it reads outside the table. *)
Theorem to_string_defined_iff tu ids g v :
  DEFINE_ENUM_WITH_STRING_CONVERSIONS tu ids = Some g →
  enum_value v →
  ((∃ s, to_string (EnumName_names g) v = Returned s) ↔ valid_variant g v) ∧
  (¬ valid_variant g v → to_string (EnumName_names g) v = Undefined).
Proof.
  intros Hgen Hv.
  pose proof (generated_table _ _ _ Hgen) as (Hnames & HN & _ & Hfit).
  assert (¬ valid_variant g v → to_string (EnumName_names g) v = Undefined)
    as Hout.
  { intros Hinv. apply to_string_outside; [done | done |].
    unfold valid_variant in Hinv. by rewrite HN, <- Hnames in Hinv. }
  split; [| done]. split.
  - intros [s Hs]. destruct (decide (valid_variant g v)) as [|Hinv]; [done |].
    rewrite (Hout Hinv) in Hs. done.
  - intros Hvalid.
    destruct (valid_variant_entry _ _ _ _ Hgen Hvalid) as (e & _ & _ & He).
    by exists e.
Qed.

Lemma to_string_defined_iff_witness :
  ((∃ s, to_string (EnumName_names Colour) (-1) = Returned s)
   ↔ valid_variant Colour (-1)) ∧
  (¬ valid_variant Colour (-1) → to_string (EnumName_names Colour) (-1) = Undefined).
Proof.
  apply (to_string_defined_iff sample_unit COLOUR_ENUM Colour (-1)).
  - vm_compute. reflexivity.
  - split; vm_compute; discriminate.
Defined.

(** Name lookup among numbered enumerators finds a position of the name. *)
Lemma lookup_enumerator_numbered_inv next es e v :
  lookup_enumerator (numbered next es) e = Some v →
  ∃ i, es !! i = Some e ∧ v = next + Z.of_nat i.
Proof.
  revert next. induction es as [|x es IH]; intros next; [done |].
  rewrite numbered_cons. simpl.
  destruct (decide (x = e)) as [->|Hne].
  - intros [= <-]. exists 0%nat. split; [done | lia].
  - intros (i & Hi & ->)%IH. exists (S i). split; [done | lia].
Qed.

(** The scan stops at the first match: entries after it play no part. *)
Lemma from_string_app (names more : list string) s :
  s ∈ names →
  EnumName_from_string (names ++ more) s = EnumName_from_string names s.
Proof.
  intros (i & Hi & Hfirst)%first_occurrence. unfold EnumName_from_string.
  rewrite (from_string_loop_finds names s 0 i); [| lia | done |].
  - apply from_string_loop_finds; [lia | by apply lookup_app_l_Some |].
    intros j Hj Hjs. apply (Hfirst j); [lia |].
    apply lookup_lt_Some in Hi.
    by rewrite lookup_app_l in Hjs by lia.
  - intros j Hj. apply Hfirst. lia.
Qed.

(** X5. In a generated enum, two valid variants that [to_string] renders
    alike are the same variant. *)
Theorem to_string_injective tu ids g v w s :
  DEFINE_ENUM_WITH_STRING_CONVERSIONS tu ids = Some g →
  valid_variant g v → valid_variant g w →
  to_string (EnumName_names g) v = Returned s →
  to_string (EnumName_names g) w = Returned s →
  v = w.
Proof.
  intros Hgen Hv Hw Hvs Hws.
  destruct (valid_variant_entry _ _ _ _ Hgen Hv) as (e & _ & He & Hstr).
  destruct (valid_variant_entry _ _ _ _ Hgen Hw) as (e' & _ & He' & Hstr').
  rewrite Hstr in Hvs. rewrite Hstr' in Hws.
  injection Hvs as ->. injection Hws as ->.
  apply generated_table in Hgen as (_ & _ & Hnd & _).
  pose proof (NoDup_lookup _ _ _ _ Hnd He He').
  destruct Hv, Hw. lia.
Qed.

Lemma to_string_injective_witness : 2 = 2.
Proof.
  apply (to_string_injective sample_unit COLOUR_ENUM Colour 2 2 "blue").
  - vm_compute. reflexivity.
  - split; vm_compute; [discriminate | reflexivity].
  - split; vm_compute; [discriminate | reflexivity].
  - vm_compute. reflexivity.
  - vm_compute. reflexivity.
Defined.

(** X6. In a generated enum, every identifier [e] of the list names an
    enumerator whose value is a valid variant, which [to_string] renders as
    the spelling of [e] and which [EnumName_from_string] returns on it. *)
Theorem conversions_by_name tu ids g e :
  DEFINE_ENUM_WITH_STRING_CONVERSIONS tu ids = Some g →
  e ∈ ids →
  ∃ v, lookup_enumerator (enumerators g) e = Some v ∧
       valid_variant g v ∧
       to_string (EnumName_names g) v = Returned e ∧
       EnumName_from_string (EnumName_names g) e = Returned v.
Proof.
  intros Hgen (i & Hi)%list_elem_of_lookup_1.
  pose proof (generated_table _ _ _ Hgen) as (Hnames & HN & Hnd & Hfit).
  apply lookup_lt_Some in Hi as Hlt.
  exists (Z.of_nat i). split; [| split; [| split]].
  - apply DEFINE_ENUM_Some in Hgen as [Hacc ->]. by apply (enumerator_value tu).
  - unfold valid_variant. rewrite HN. lia.
  - apply to_string_entry; [done | lia |]. by rewrite Nat2Z.id, Hnames.
  - apply from_string_first; [done | by rewrite Hnames |].
    intros j Hj Hje. rewrite Hnames in Hje, Hnd.
    pose proof (NoDup_lookup _ _ _ _ Hnd Hje Hi). lia.
Qed.

Lemma conversions_by_name_witness :
  ∃ v, lookup_enumerator (enumerators Colour) "green" = Some v ∧
       valid_variant Colour v ∧
       to_string (EnumName_names Colour) v = Returned "green" ∧
       EnumName_from_string (EnumName_names Colour) "green" = Returned v.
Proof.
  apply (conversions_by_name sample_unit COLOUR_ENUM Colour "green").
  - vm_compute. reflexivity.
  - apply (list_elem_of_lookup_2 _ 1%nat). reflexivity.
Defined.

(** X7. In a generated enum every enumerator has a value from 0 up to the
    marker's, and the marker's own value is held by no other enumerator:
    [TOTAL] is strictly above all of them. *)
Theorem marker_is_greatest tu ids g e v :
  DEFINE_ENUM_WITH_STRING_CONVERSIONS tu ids = Some g →
  lookup_enumerator (enumerators g) e = Some v →
  0 ≤ v ∧ v ≤ TOTAL g ∧ (v = TOTAL g ↔ e = "TOTAL").
Proof.
  intros [(Hnd & Hmarker & _) ->]%DEFINE_ENUM_Some. simpl.
  intros (i & Hi & ->)%lookup_enumerator_numbered_inv.
  apply lookup_lt_Some in Hi as Hlt. rewrite length_app in Hlt. simpl in Hlt.
  split; [lia |]. split; [lia |]. split.
  - intros Heq. assert (i = length ids) as -> by lia.
    rewrite lookup_app_r, Nat.sub_diag in Hi by done. by injection Hi.
  - intros ->. destruct (decide (i < length ids)%nat) as [Hin|Hend].
    + rewrite lookup_app_l in Hi by done.
      exfalso. apply Hmarker. by eapply list_elem_of_lookup_2.
    + f_equal. lia.
Qed.

Lemma marker_is_greatest_witness :
  0 ≤ 1 ∧ 1 ≤ TOTAL Colour ∧ (1 = TOTAL Colour ↔ "green" = "TOTAL").
Proof.
  apply (marker_is_greatest sample_unit COLOUR_ENUM Colour "green" 1).
  - vm_compute. reflexivity.
  - vm_compute. reflexivity.
Defined.

(** X8. Appending identifiers to an Enumerator List changes nothing for the
    enumerators already there: each keeps its value and its parse, and every
    variant that was valid stays valid and keeps its spelling. *)
Theorem append_keeps_enumerators tu ids more g g' e v :
  DEFINE_ENUM_WITH_STRING_CONVERSIONS tu ids = Some g →
  DEFINE_ENUM_WITH_STRING_CONVERSIONS tu (ids ++ more) = Some g' →
  e ∈ ids → valid_variant g v →
  lookup_enumerator (enumerators g') e = lookup_enumerator (enumerators g) e ∧
  EnumName_from_string (EnumName_names g') e
    = EnumName_from_string (EnumName_names g) e ∧
  valid_variant g' v ∧
  to_string (EnumName_names g') v = to_string (EnumName_names g) v.
Proof.
  intros Hgen Hgen' He Hv.
  destruct (valid_variant_entry _ _ _ _ Hgen Hv) as (x & Hx & _ & ->).
  apply DEFINE_ENUM_Some in Hgen as [Hacc ->].
  apply DEFINE_ENUM_Some in Hgen' as [Hacc' ->].
  apply list_elem_of_lookup_1 in He as Hi. destruct Hi as [i Hi].
  destruct Hv as [Hv0 HvN]. simpl in HvN.
  change (EnumName_names (artifacts (ids ++ more))) with (ids ++ more)%list.
  change (EnumName_names (artifacts ids)) with ids.
  split; [| split; [| split]].
  - rewrite (enumerator_value tu ids i e) by done.
    apply (enumerator_value tu); [done | by apply lookup_app_l_Some].
  - by apply from_string_app.
  - unfold valid_variant. simpl. rewrite length_app. lia.
  - destruct Hacc' as (_ & _ & Hfit' & _).
    apply to_string_entry; [done | done | by apply lookup_app_l_Some].
Qed.

Lemma append_keeps_enumerators_witness :
  lookup_enumerator (enumerators (artifacts (COLOUR_ENUM ++ ["mauve"]))) "blue"
    = lookup_enumerator (enumerators Colour) "blue" ∧
  EnumName_from_string (EnumName_names (artifacts (COLOUR_ENUM ++ ["mauve"]))) "blue"
    = EnumName_from_string (EnumName_names Colour) "blue" ∧
  valid_variant (artifacts (COLOUR_ENUM ++ ["mauve"])) 2 ∧
  to_string (EnumName_names (artifacts (COLOUR_ENUM ++ ["mauve"]))) 2
    = to_string (EnumName_names Colour) 2.
Proof.
  apply (append_keeps_enumerators sample_unit COLOUR_ENUM ["mauve"] Colour
           (artifacts (COLOUR_ENUM ++ ["mauve"])) "blue" 2).
  - vm_compute. reflexivity.
  - vm_compute. reflexivity.
  - apply (list_elem_of_lookup_2 _ 2%nat). reflexivity.
  - split; vm_compute; [discriminate | reflexivity].
Defined.

(** X9. Two insertions chained on one stream, [os << v << w], leave in it
    the spelling of [v] followed by that of [w], leave every other stream of
    the store as it was, and return the same stream again. *)
Theorem stream_chaining tu {K} `{TextSink K} ids g v w (σ : gmap nat K) os k :
  DEFINE_ENUM_WITH_STRING_CONVERSIONS tu ids = Some g →
  valid_variant g v → valid_variant g w →
  σ !! os = Some k →
  ∃ sv sw, to_string (EnumName_names g) v = Returned sv ∧
           to_string (EnumName_names g) w = Returned sw ∧
           ('(σ', os') ← operator_insert (EnumName_names g) σ os v;
            operator_insert (EnumName_names g) σ' os' w)
           = Returned (<[os := sink_put (sink_put k sv) sw]> σ, os).
Proof.
  intros Hgen Hv Hw Hos.
  destruct (valid_variant_entry _ _ _ _ Hgen Hv) as (sv & _ & _ & Hsv).
  destruct (valid_variant_entry _ _ _ _ Hgen Hw) as (sw & _ & _ & Hsw).
  exists sv, sw. repeat split; [done | done |].
  unfold operator_insert, ostream_insert.
  rewrite Hsv. simpl. rewrite Hos. simpl.
  rewrite Hsw. simpl. rewrite lookup_insert_eq.
  by rewrite insert_insert_eq.
Qed.

Lemma stream_chaining_witness :
  ∃ sv sw, to_string (EnumName_names Colour) 0 = Returned sv ∧
           to_string (EnumName_names Colour) 2 = Returned sw ∧
           ('(σ', os') ← operator_insert (EnumName_names Colour)
                           {[ 7%nat := "" ]} 7%nat 0;
            operator_insert (EnumName_names Colour) σ' os' 2)
           = Returned (<[7%nat := sink_put (sink_put "" sv) sw]> {[ 7%nat := "" ]},
                       7%nat).
Proof.
  apply (stream_chaining sample_unit COLOUR_ENUM Colour 0 2 {[ 7%nat := "" ]} 7%nat "").
  - vm_compute. reflexivity.
  - split; vm_compute; [discriminate | reflexivity].
  - split; vm_compute; [discriminate | reflexivity].
  - vm_compute. reflexivity.
Defined.

(** X10. On a live stream, the insertion operator of a generated enum
    completes exactly for the valid variants: for every other value of the
    enum type its behaviour is undefined, that of the [to_string] it calls
    first, and no store comes back. *)
Theorem stream_insertion_defined_iff tu {K} `{TextSink K} ids g v
    (σ : gmap nat K) os k :
  DEFINE_ENUM_WITH_STRING_CONVERSIONS tu ids = Some g →
  enum_value v →
  σ !! os = Some k →
  ((∃ r, operator_insert (EnumName_names g) σ os v = Returned r)
   ↔ valid_variant g v) ∧
  (¬ valid_variant g v → operator_insert (EnumName_names g) σ os v = Undefined).
Proof.
  intros Hgen Hval Hos.
  pose proof (generated_table _ _ _ Hgen) as (Hnames & HN & _ & Hfit).
  assert (¬ valid_variant g v →
          operator_insert (EnumName_names g) σ os v = Undefined) as Hout.
  { intros Hinv. unfold operator_insert.
    rewrite to_string_outside; [done | done | done |].
    unfold valid_variant in Hinv. by rewrite HN, <- Hnames in Hinv. }
  split; [| done]. split.
  - intros [r Hr]. destruct (decide (valid_variant g v)) as [|Hinv]; [done |].
    by rewrite (Hout Hinv) in Hr.
  - intros Hv.
    destruct (valid_variant_entry _ _ _ _ Hgen Hv) as (s & _ & _ & Hs).
    exists (<[os := sink_put k s]> σ, os).
    unfold operator_insert, ostream_insert. rewrite Hs. simpl. by rewrite Hos.
Qed.

Lemma stream_insertion_defined_iff_witness :
  ((∃ r, operator_insert (EnumName_names Colour) {[ 7%nat := "" ]} 7%nat 3
         = Returned r)
   ↔ valid_variant Colour 3) ∧
  (¬ valid_variant Colour 3 →
   operator_insert (EnumName_names Colour) {[ 7%nat := "" ]} 7%nat 3 = Undefined).
Proof.
  apply (stream_insertion_defined_iff sample_unit COLOUR_ENUM Colour 3
           {[ 7%nat := "" ]} 7%nat "").
  - vm_compute. reflexivity.
  - split; vm_compute; discriminate.
  - vm_compute. reflexivity.
Defined.

(** X11. Where [TOTAL] can be declared, the macro accepts the X-macro that
    lists nothing: the enum then holds the marker alone, of value 0, the
    table is empty, [EnumName_from_string] stops in its assertion on every
    input and [to_string] is undefined on every value. *)
Theorem empty_enum tu :
  declarable tu "TOTAL" →
  ∃ g, DEFINE_ENUM_WITH_STRING_CONVERSIONS tu [] = Some g ∧
       enumerators g = [("TOTAL", 0)] ∧ TOTAL g = 0 ∧
       (∀ s, EnumName_from_string (EnumName_names g) s
             = AssertFailed "Invalid Enum name") ∧
       (∀ v, to_string (EnumName_names g) v = Undefined).
Proof.
  intros Hdecl. exists (artifacts []). split.
  { apply DEFINE_ENUM_Some. split; [| done].
    repeat split; [constructor | apply not_elem_of_nil | by vm_compute |].
    by apply Forall_singleton. }
  split; [by vm_compute |]. split; [done |]. split.
  - intros s. apply from_string_absent. apply not_elem_of_nil.
  - intros v. unfold to_string, array_at.
    change (EnumName_names (artifacts [])) with (@nil string).
    by rewrite lookup_nil.
Qed.

Lemma empty_enum_witness :
  ∃ g, DEFINE_ENUM_WITH_STRING_CONVERSIONS sample_unit [] = Some g ∧
       enumerators g = [("TOTAL", 0)] ∧ TOTAL g = 0 ∧
       (∀ s, EnumName_from_string (EnumName_names g) s
             = AssertFailed "Invalid Enum name") ∧
       (∀ v, to_string (EnumName_names g) v = Undefined).
Proof.
  apply (empty_enum sample_unit).
  apply (bool_decide_unpack _). vm_compute. reflexivity.
Defined.

(** The values of numbered enumerators are consecutive. *)
Lemma numbered_values next es :
  (numbered next es).*2 = seqZ next (Z.of_nat (length es)).
Proof.
  revert next. induction es as [|e es IH]; intros next; [done |].
  rewrite numbered_cons. simpl length.
  rewrite seqZ_cons by lia. simpl. rewrite IH.
  f_equal. f_equal; lia.
Qed.

(** X12. The enum and the table of a generated enum come from the one list
    and stay in step: the enumerators are, in order, the entries of the
    table followed by [TOTAL], and their values are 0, 1, ... up to the
    marker's. *)
Theorem enum_and_table_in_step tu ids g :
  DEFINE_ENUM_WITH_STRING_CONVERSIONS tu ids = Some g →
  (enumerators g).*1 = (EnumName_names g ++ ["TOTAL"])%list ∧
  (enumerators g).*2 = seqZ 0 (TOTAL g + 1) ∧
  Z.of_nat (length (EnumName_names g)) = TOTAL g.
Proof.
  intros [_ ->]%DEFINE_ENUM_Some. simpl.
  rewrite numbered_names, numbered_values, length_app.
  repeat split. simpl. f_equal. lia.
Qed.

Lemma enum_and_table_in_step_witness :
  (enumerators Colour).*1 = (EnumName_names Colour ++ ["TOTAL"])%list ∧
  (enumerators Colour).*2 = seqZ 0 (TOTAL Colour + 1) ∧
  Z.of_nat (length (EnumName_names Colour)) = TOTAL Colour.
Proof.
  apply (enum_and_table_in_step sample_unit COLOUR_ENUM Colour).
  vm_compute. reflexivity.
Defined.
